(** * Remote live-debug system: the firmware-artifact copier and the
      memory-access bridge

    [Copier] embeds [Gateway/usb_elf_copier.cpp]: the program that resolves
    the [/dev/elf_usb] symlink, mounts the USB device, copies the [.elf]
    files and unmounts.  Every call the program makes to the operating
    system or to the C++ standard library is answered by a [world], so that
    a theorem quantified over worlds speaks about every run of [main]. *)

From Stdlib Require Import ZArith Ascii String.
From stdpp Require Import gmap strings list fin_maps.

Local Open Scope Z_scope.

Module Copier.

(** ** What the program observes *)

#[global] Instance byte_eq_dec : EqDecision Byte.byte := Byte.byte_eq_dec.

(** [errno] value tested after [mkdir] (Linux, [errno-base.h]). *)
Definition EEXIST : Z := 17.

(** The return of [mkdir(2)]: 0, or -1 with [errno] set. *)
Inductive mkdir_result :=
| mkdir_done
| mkdir_failed (errno : Z).

(** [std::filesystem::file_type], as [status()] reports it for an entry
    (symlinks followed). *)
Inductive file_type :=
| regular | directory | symlink | block | character | fifo | socket
| not_found | unknown.

(** A call of [std::filesystem] either returns or throws
    [filesystem_error] with its [what()] text. *)
Inductive fs_result (A : Type) :=
| returned (a : A)
| threw (what : string).
Arguments returned {A} a.
Arguments threw {A} what.

(** One entry yielded by [directory_iterator(source_dir)]: the last
    component of [entry.path()], what [entry.is_regular_file()] finds, and
    the bytes of the file it names. *)
Record directory_entry := {
  filename : string;
  status : fs_result file_type;
  contents : list Byte.byte
}.

Record world := {
  (* readlink(path, buf, sizeof(buf) - 1): None when it returns -1,
     otherwise the bytes stored in buf *)
  readlink : string -> option string;
  (* access(path, F_OK) *)
  access : string -> Z;
  (* mkdir(path, 0777) *)
  mkdir : string -> mkdir_result;
  (* system(command) *)
  system : string -> Z;
  (* std::filesystem::create_directories(path) *)
  create_directories : string -> fs_result unit;
  (* the entries directory_iterator(path) yields, or the error it throws *)
  directory_iterator : string -> fs_result (list directory_entry);
  (* std::filesystem::copy(from, to, copy_options::overwrite_existing) on
     the files present: the files it leaves, and whether it returned or
     threw (a call that throws may have written part of the target) *)
  copy : string -> string -> gmap string (list Byte.byte)
         -> gmap string (list Byte.byte) * fs_result unit;
  (* the files already present, by path *)
  files : gmap string (list Byte.byte)
}.

(** What a run leaves behind. *)
Inductive event :=
| ev_perror (msg : string)
| ev_cerr (msg : string)
| ev_cout (msg : string)
| ev_system (command : string)
| ev_copy (from to : string).

Record outcome := {
  exit_status : Z;
  trace : list event;
  files_after : gmap string (list Byte.byte)
}.

(** ** [std::filesystem::path::extension] *)

(** The suffix of [s] that starts at its rightmost period. *)
Fixpoint last_period (s : string) : option string :=
  match s with
  | EmptyString => None
  | String c rest =>
      match last_period rest with
      | Some suffix => Some suffix
      | None => if Ascii.eqb c "." then Some s else None
      end
  end.

(** C++17 [path::extension] of a file name: empty for [.] and [..], empty
    when the name has no period or its only period leads the name,
    otherwise the substring from the rightmost period. *)
Definition extension (name : string) : string :=
  if String.eqb name "." || String.eqb name ".." then ""
  else match last_period name with
       | Some suffix => if String.eqb suffix name then "" else suffix
       | None => ""
       end.

Definition is_regular_file (t : file_type) : bool :=
  match t with regular => true | _ => false end.

(** ** The program *)

Definition mount_point : string := "/mnt/elf_usb".
Definition source_dir : string := mount_point +:+ "/elf/".
Definition target_dir : string := "/main_module/data/elf/".

(** The body of the range-for over the directory entries (lines 43-48):
    the files the calls of [copy] have left, the calls made, and the error
    that ended the loop, if any. *)
Fixpoint copy_entries (w : world) (entries : list directory_entry)
    (fs : gmap string (list Byte.byte))
    : gmap string (list Byte.byte) * list event * option string :=
  match entries with
  | [] => (fs, [], None)
  | entry :: rest =>
      match status entry with
      | threw what => (fs, [], Some what)
      | returned t =>
          if is_regular_file t && String.eqb (extension (filename entry)) ".elf"
          then
            let from := source_dir +:+ filename entry in
            let to := target_dir +:+ filename entry in
            match copy w from to fs with
            | (fs', threw what) => (fs', [ev_copy from to], Some what)
            | (fs', returned _) =>
                let '(fs'', calls, err) := copy_entries w rest fs' in
                (fs'', ev_copy from to :: calls, err)
            end
          else copy_entries w rest fs
      end
  end.

(** The [try] block (lines 41-48). *)
Definition try_block (w : world)
    : gmap string (list Byte.byte) * list event * option string :=
  match create_directories w target_dir with
  | threw what => (files w, [], Some what)
  | returned _ =>
      match directory_iterator w source_dir with
      | threw what => (files w, [], Some what)
      | returned entries => copy_entries w entries (files w)
      end
  end.

(** The [catch] clause (lines 49-51). *)
Definition catch_clause (err : option string) : list event :=
  match err with
  | Some what => [ev_cerr ("Filesystem error: " +:+ what)]
  | None => []
  end.

Definition finish (code : Z) (tr : list event)
    (fs : gmap string (list Byte.byte)) : outcome :=
  {| exit_status := code; trace := tr; files_after := fs |}.

Definition main (w : world) : outcome :=
  let symlink := "/dev/elf_usb" in
  match readlink w symlink with
  | None => finish 1 [ev_perror "readlink failed"] (files w)
  | Some buf =>
      let real_dev := "/dev/" +:+ buf in
      let partition := real_dev +:+ "1" in
      let partition :=
        if negb (access w partition =? 0)%Z then real_dev else partition in
      if match mkdir w mount_point with
         | mkdir_done => false
         | mkdir_failed errno => negb (errno =? EEXIST)%Z
         end
      then finish 1 [ev_perror "mkdir failed"] (files w)
      else
        let mount_cmd := "mount " +:+ partition +:+ " " +:+ mount_point in
        if negb (system w mount_cmd =? 0)%Z
        then finish 1
               [ev_system mount_cmd;
                ev_cerr "Mount failed. Ensure the program is run with sudo and the device is correct."]
               (files w)
        else
          let '(fs, calls, err) := try_block w in
          let umount_cmd := "umount " +:+ mount_point in
          let tr := ev_system mount_cmd :: calls ++ catch_clause err
                    ++ [ev_system umount_cmd] in
          if negb (system w umount_cmd =? 0)%Z
          then finish 1 (tr ++ [ev_cerr "Unmount failed."]) fs
          else finish 0 (tr ++ [ev_cout "Files copied successfully."]) fs
  end.

(** The commands handed to [system], in order. *)
Definition commands (tr : list event) : list string :=
  omap (fun e => match e with ev_system c => Some c | _ => None end) tr.

(** The calls of [std::filesystem::copy], in order. *)
Definition copies (tr : list event) : list (string * string) :=
  omap (fun e => match e with ev_copy a b => Some (a, b) | _ => None end) tr.

(** An entry the loop's condition (line 44) selects. *)
Definition selected (entry : directory_entry) : bool :=
  match status entry with
  | returned t => is_regular_file t && String.eqb (extension (filename entry)) ".elf"
  | threw _ => false
  end.

(** The arguments of the [copy] call of lines 45-46 for an entry. *)
Definition source_path (entry : directory_entry) : string :=
  "/mnt/elf_usb/elf/" +:+ filename entry.
Definition target_path (entry : directory_entry) : string :=
  "/main_module/data/elf/" +:+ filename entry.

(** The device the program is meant to mount for a symlink that reads
    [link]: the first partition when [access] finds it, the whole device
    otherwise. *)
Definition device_to_mount (w : world) (link : string) : string :=
  if decide (access w ("/dev/" +:+ link +:+ "1") = 0)
  then "/dev/" +:+ link +:+ "1"
  else "/dev/" +:+ link.

(** The run got past line 33: the first command handed to [system], the
    mount command, returned 0. *)
Definition mounted (w : world) : Prop :=
  exists command,
    head (commands (trace (main w))) = Some command /\ system w command = 0.


(** The call of [copy] for an entry. *)
Definition copy_call (entry : directory_entry) : event :=
  ev_copy (source_path entry) (target_path entry).



(** Whether line 27 lets the run continue. *)
Definition mkdir_passes (w : world) : Prop :=
  mkdir w "/mnt/elf_usb" = mkdir_done
  \/ mkdir w "/mnt/elf_usb" = mkdir_failed EEXIST.

(** The mount command for that device. *)
Definition mount_command (w : world) (link : string) : string :=
  "mount " +:+ device_to_mount w link +:+ " /mnt/elf_usb".

(** The three ways a run of [main] can go. *)
Inductive run : world -> outcome -> Prop :=
| run_stopped w tr :
    ~ (is_Some (readlink w "/dev/elf_usb") /\ mkdir_passes w) ->
    commands tr = [] -> copies tr = [] ->
    run w (finish 1 tr (files w))
| run_not_mounted w link msg :
    readlink w "/dev/elf_usb" = Some link -> mkdir_passes w ->
    system w (mount_command w link) <> 0 ->
    run w (finish 1 [ev_system (mount_command w link); ev_cerr msg] (files w))
| run_mounted w link fs calls err :
    readlink w "/dev/elf_usb" = Some link -> mkdir_passes w ->
    system w (mount_command w link) = 0 ->
    try_block w = (fs, calls, err) ->
    run w (finish (if decide (system w "umount /mnt/elf_usb" = 0) then 0 else 1)
             (ev_system (mount_command w link) :: calls ++ catch_clause err
                ++ [ev_system "umount /mnt/elf_usb";
                    if decide (system w "umount /mnt/elf_usb" = 0)
                    then ev_cout "Files copied successfully."
                    else ev_cerr "Unmount failed."])
             fs).

(** ** Sample runs *)

(** A stick whose symlink reads [sdb], with a first partition, plugged into
    a host where the mount point is already there ([mkdir] fails with
    [EEXIST]), every command returns 0 and [copy] fails, writing nothing,
    exactly for the paths in [unwritable]; any other copy replaces the
    target by the bytes of the entry copied. *)
Definition stick (entries : list directory_entry) (unwritable : list string)
    (present : gmap string (list Byte.byte)) : world :=
  {| readlink path := if decide (path = "/dev/elf_usb") then Some "sdb" else None;
     access path := if decide (path = "/dev/sdb1") then 0 else -1;
     mkdir _ := mkdir_failed EEXIST;
     system _ := 0;
     create_directories _ := returned ();
     directory_iterator path :=
       if decide (path = "/mnt/elf_usb/elf/") then returned entries
       else threw "No such file or directory";
     copy from to fs :=
       if decide (to ∈ unwritable) then (fs, threw "Permission denied")
       else
         (match list_find (fun entry => source_path entry = from) entries with
          | Some (_, entry) => <[to := contents entry]> fs
          | None => fs
          end, returned ());
     files := present |}.

Definition file (name : string) (t : file_type) (bytes : list Byte.byte)
    : directory_entry :=
  {| filename := name; status := returned t; contents := bytes |}.

Definition port_elf : directory_entry := file "port.elf" regular [Byte.x7f; Byte.x45].
Definition cabinet_elf : directory_entry := file "cabinet.elf" regular [Byte.x7f; Byte.x4c].

(** A directory with two firmware images among entries the loop skips;
    the target already holds an older [port.elf]. *)
Definition mixed_stick : world :=
  stick [port_elf; file "notes.txt" regular [Byte.x68];
         file "old.elf" directory []; file ".elf" regular [Byte.x00];
         file "sensor.ELF" regular [Byte.x01]; cabinet_elf]
        []
        {[ "/main_module/data/elf/port.elf" := [Byte.x00] ]}.

(** The same two images, the first of which cannot be written. *)
Definition read_only_target : world :=
  stick [port_elf; cabinet_elf] ["/main_module/data/elf/port.elf"] ∅.

(** ** Runs compared *)

(** Two worlds whose calls outside [std::filesystem] answer alike. *)
Definition same_host (w w' : world) : Prop :=
  readlink w "/dev/elf_usb" = readlink w' "/dev/elf_usb"
  /\ (forall path, access w path = access w' path)
  /\ mkdir w "/mnt/elf_usb" = mkdir w' "/mnt/elf_usb"
  /\ (forall command, system w command = system w' command).

(** The stick of [read_only_target] with the second image unwritable. *)
Definition half_written : world :=
  stick [port_elf; file "notes.txt" regular [Byte.x68]; cabinet_elf;
         file "sensor.elf" regular [Byte.x02]]
        ["/main_module/data/elf/cabinet.elf"] ∅.

(** A host on which every command but the unmount returns 32. *)
Definition mount_refused : world :=
  {| readlink path := if decide (path = "/dev/elf_usb") then Some "sdb" else None;
     access _ := -1;
     mkdir _ := mkdir_done;
     system command := if decide (command = "umount /mnt/elf_usb") then 0 else 32;
     create_directories _ := returned ();
     directory_iterator _ := returned [port_elf];
     copy _ _ fs := (fs, returned ());
     files := ∅ |}.

(** A stick with no [elf] directory on it. *)
Definition no_elf_directory : world :=
  {| readlink path := if decide (path = "/dev/elf_usb") then Some "sdb" else None;
     access _ := -1;
     mkdir _ := mkdir_done;
     system _ := 0;
     create_directories _ := returned ();
     directory_iterator _ := threw "No such file or directory";
     copy _ _ fs := (fs, returned ());
     files := {[ "/main_module/data/elf/port.elf" := [Byte.x00] ]} |}.

End Copier.

(** * The Protocol Master, from the design (spec sections 3, 4.2, 4.3, 6)

    The repository's sources hold no code for the memory-access bridge;
    [ProtocolMaster] is a model of what the design says about it. *)

Module ProtocolMaster.

(** Modelled from the spec: the ProtocolSession states of section 3. *)
Inductive session_state := Disconnected | Connecting | Connected | Measuring.

(** Modelled from the spec: the protocol master's errors (section 7). *)
Inductive error :=
| Timeout | Rejected | SessionError | TransportError | ControllerUnavailable.

(** Modelled from the spec: the frames of the field protocol, which the
    sources do not define.  The first five are sent by the master, the
    last three are a controller's replies. *)
Inductive frame :=
| f_connect
| f_disconnect
| f_set_mta (address extension : N)
| f_upload (count : nat)
| f_download (payload : list Byte.byte)
| f_ack
| f_data (payload : list Byte.byte)
| f_nack.

(** ** The controller behind a Transport Link *)

(** Modelled from the spec: the microcontroller-side responder, external to
    the design, as a byte memory per address extension with a memory
    transfer pointer, "the address a controller will use for the next
    upload/download, set via SET_MTA" (glossary): a transfer starts at the
    pointer and moves it past the bytes transferred. *)
Record controller := {
  memory : gmap (N * N) Byte.byte;
  mta : N;
  mta_extension : N;
  compatible : bool
}.

(** Modelled from the spec: what the controller's memory holds from an
    address on (a byte never written reads as 0) and what a write leaves. *)
Fixpoint read_bytes (mem : gmap (N * N) Byte.byte) (extension address : N)
    (count : nat) : list Byte.byte :=
  match count with
  | O => []
  | S count =>
      default Byte.x00 (mem !! (extension, address))
        :: read_bytes mem extension (N.succ address) count
  end.

Fixpoint write_bytes (mem : gmap (N * N) Byte.byte) (extension address : N)
    (bytes : list Byte.byte) : gmap (N * N) Byte.byte :=
  match bytes with
  | [] => mem
  | b :: bytes =>
      write_bytes (<[(extension, address) := b]> mem) extension
        (N.succ address) bytes
  end.

(** Modelled from the spec: the controller's reply to one frame. *)
Definition respond (c : controller) (request : frame) : controller * frame :=
  match request with
  | f_connect => (c, if compatible c then f_ack else f_nack)
  | f_disconnect => (c, f_ack)
  | f_set_mta address extension =>
      ({| memory := memory c; mta := address; mta_extension := extension;
          compatible := compatible c |}, f_ack)
  | f_upload count =>
      ({| memory := memory c; mta := mta c + N.of_nat count;
          mta_extension := mta_extension c; compatible := compatible c |},
       f_data (read_bytes (memory c) (mta_extension c) (mta c) count))
  | f_download payload =>
      ({| memory := write_bytes (memory c) (mta_extension c) (mta c) payload;
          mta := mta c + N.of_nat (length payload);
          mta_extension := mta_extension c; compatible := compatible c |},
       f_ack)
  | f_ack | f_data _ | f_nack => (c, f_nack)
  end%N.

(** ** The Transport Link *)

(** What the serial fabric does with one frame: the reply comes back, no
    reply comes within the window, or the link reports a fault. *)
Inductive delivery := delivered | lost | faulted.

(** Modelled from the spec: a controller's Transport Link (section 6,
    [send(controllerAddress, frame) -> frame | timeout]), one exchange at a
    time.  [faults] scripts what the fabric does with the next frames (every
    frame after the script is delivered) and [wire] records the frames the
    master has put on the wire, oldest first. *)
Record link := {
  device : controller;
  faults : list delivery;
  wire : list frame
}.

(** Modelled from the spec: [send] of section 6. *)
Definition send (l : link) (request : frame) : link * (frame + delivery) :=
  let sent := wire l ++ [request] in
  match faults l with
  | [] =>
      let '(c, reply) := respond (device l) request in
      ({| device := c; faults := []; wire := sent |}, inl reply)
  | delivered :: rest =>
      let '(c, reply) := respond (device l) request in
      ({| device := c; faults := rest; wire := sent |}, inl reply)
  | failure :: rest =>
      ({| device := device l; faults := rest; wire := sent |}, inr failure)
  end.

(** The link after a frame that was delivered and answered. *)
Definition answered (l : link) (request : frame) : link :=
  {| device := (respond (device l) request).1;
     faults := tail (faults l);
     wire := wire l ++ [request] |}.

(** No transport fault is injected: whatever the script still holds is
    delivered. *)
Definition fault_free (l : link) : Prop := Forall (eq delivered) (faults l).

Section Master.

(** The constants section 9 leaves to the implementation: the transport's
    maximum frame payload and the bound on retries. *)
Variable max_payload : nat.
Variable retry_bound : nat.

(** Modelled from the spec: "transient transport errors are retried up to a
    small fixed bound" (section 4.2): one frame is sent up to
    [1 + retries] times. *)
Fixpoint exchange (retries : nat) (l : link) (request : frame)
    : link * (frame + delivery) :=
  match send l request with
  | (l', inl reply) => (l', inl reply)
  | (l', inr failure) =>
      match retries with
      | O => (l', inr failure)
      | S retries => exchange retries l' request
      end
  end.

(** Modelled from the spec: "large sizes are chunked into a sequence of
    protocol frames bounded by the transport's maximum frame payload"
    (section 4.2).  The payload sizes of the frames for [size] bytes, and
    the payloads for the bytes of a download. *)
Fixpoint chunk_sizes (fuel size : nat) : list nat :=
  match fuel with
  | O => []
  | S fuel =>
      match size with
      | O => []
      | _ => min max_payload size :: chunk_sizes fuel (size - min max_payload size)
      end
  end.

Fixpoint chunks (fuel : nat) (bytes : list Byte.byte) : list (list Byte.byte) :=
  match fuel with
  | O => []
  | S fuel =>
      match bytes with
      | [] => []
      | _ => take max_payload bytes :: chunks fuel (drop max_payload bytes)
      end
  end.

(** Modelled from the spec: the frames of one upload, in order, and the
    bytes "reassembled in order" (section 4.2). *)
Fixpoint upload_chunks (l : link) (counts : list nat)
    : link * (list Byte.byte + error) :=
  match counts with
  | [] => (l, inl [])
  | count :: counts =>
      match exchange retry_bound l (f_upload count) with
      | (l', inl (f_data payload)) =>
          match upload_chunks l' counts with
          | (l'', inl rest) => (l'', inl (payload ++ rest))
          | (l'', inr e) => (l'', inr e)
          end
      | (l', inl _) => (l', inr TransportError)
      | (l', inr _) => (l', inr ControllerUnavailable)
      end
  end.

(** Modelled from the spec: the frames of one download, in order
    ("symmetric to upload for writes"). *)
Fixpoint download_chunks (l : link) (payloads : list (list Byte.byte))
    : link * (unit + error) :=
  match payloads with
  | [] => (l, inl ())
  | payload :: payloads =>
      match exchange retry_bound l (f_download payload) with
      | (l', inl f_ack) => download_chunks l' payloads
      | (l', inl _) => (l', inr TransportError)
      | (l', inr _) => (l', inr ControllerUnavailable)
      end
  end.

(** Modelled from the spec: the ProtocolSession of one controller (section
    3) with the address of the last [setAddress] and the controller's
    Transport Link, which the session's queue owns. *)
Record session := {
  state : session_state;
  pointer : N * N;
  transport : link
}.

Definition established (s : session) : bool :=
  match state s with
  | Connected | Measuring => true
  | Disconnected | Connecting => false
  end.

Definition with_link (s : session) (l : link) : session :=
  {| state := state s; pointer := pointer s; transport := l |}.

(** Modelled from the spec: a failed exchange forces the session to
    Disconnected (section 4.2). *)
Definition dropped (s : session) (l : link) : session :=
  {| state := Disconnected; pointer := pointer s; transport := l |}.

(** Modelled from the spec: [connect] (section 4.2). *)
Definition connect (s : session) : session * (unit + error) :=
  if established s then (s, inl ())
  else
    match send (transport s) f_connect with
    | (l, inl f_ack) =>
        ({| state := Connected; pointer := pointer s; transport := l |}, inl ())
    | (l, inl _) => (dropped s l, inr Rejected)
    | (l, inr lost) => (dropped s l, inr Timeout)
    | (l, inr _) => (dropped s l, inr TransportError)
    end.

(** Modelled from the spec: [setAddress] (section 4.2). *)
Definition setAddress (s : session) (address extension : N)
    : session * (unit + error) :=
  if established s then
    match exchange retry_bound (transport s) (f_set_mta address extension) with
    | (l, inl f_ack) =>
        ({| state := state s; pointer := (address, extension); transport := l |},
         inl ())
    | (l, inl _) => (dropped s l, inr TransportError)
    | (l, inr _) => (dropped s l, inr ControllerUnavailable)
    end
  else (s, inr SessionError).

(** Modelled from the spec: a transfer starts "from the previously set
    address" (section 4.2): it first points the controller at the address
    of the last [setAddress]. *)
Definition rearm (s : session) : link * (unit + error) :=
  match exchange retry_bound (transport s)
          (f_set_mta (pointer s).1 (pointer s).2) with
  | (l, inl f_ack) => (l, inl ())
  | (l, inl _) => (l, inr TransportError)
  | (l, inr _) => (l, inr ControllerUnavailable)
  end.

(** Modelled from the spec: [upload] (section 4.2). *)
Definition upload (s : session) (size : nat)
    : session * (list Byte.byte + error) :=
  if established s then
    match rearm s with
    | (l, inl _) =>
        match upload_chunks l (chunk_sizes size size) with
        | (l', inl bytes) => (with_link s l', inl bytes)
        | (l', inr e) => (dropped s l', inr e)
        end
    | (l, inr e) => (dropped s l, inr e)
    end
  else (s, inr SessionError).

(** Modelled from the spec: [download] (section 4.2). *)
Definition download (s : session) (bytes : list Byte.byte)
    : session * (unit + error) :=
  if established s then
    match rearm s with
    | (l, inl _) =>
        match download_chunks l (chunks (length bytes) bytes) with
        | (l', inl _) => (with_link s l', inl ())
        | (l', inr e) => (dropped s l', inr e)
        end
    | (l, inr e) => (dropped s l, inr e)
    end
  else (s, inr SessionError).

(** Modelled from the spec: [disconnect] (section 4.2): the controller is
    told on a best-effort basis and the session ends in any case. *)
Definition disconnect (s : session) : session * (unit + error) :=
  (dropped s (send (transport s) f_disconnect).1, inl ()).

End Master.

(** ** The gateway's commands and responses *)

(** Modelled from the spec: the Command and Response values of sections 3
    and 6. *)
Inductive operation := SET_MTA | UPLOAD | DOWNLOAD.

Record Command := {
  command_id : string;
  target : N;
  name : operation;
  bytes : list Byte.byte
}.

Inductive status := success | error_status.

Record Response := {
  response_id : string;
  response_status : status;
  message : string;
  returned_bytes : list Byte.byte
}.

Definition message_of (e : error) : string :=
  match e with
  | Timeout => "timeout"
  | Rejected => "rejected"
  | SessionError => "session not established"
  | TransportError => "transport error"
  | ControllerUnavailable => "controller unavailable"
  end.

Definition succeeded (cmd : Command) (data : list Byte.byte) : Response :=
  {| response_id := command_id cmd; response_status := success;
     message := "ok"; returned_bytes := data |}.

Definition failed (cmd : Command) (why : string) : Response :=
  {| response_id := command_id cmd; response_status := error_status;
     message := why; returned_bytes := [] |}.

(** The four bytes of a SET_MTA command, least significant first: the
    scenario of section 8 reads [0,0,0,0x10] as address 0x10000000. *)
Definition decode_address (bs : list Byte.byte) : option N :=
  match bs with
  | [b0; b1; b2; b3] =>
      Some (Byte.to_N b0 + 256 * (Byte.to_N b1 + 256 * (Byte.to_N b2
              + 256 * Byte.to_N b3)))%N
  | _ => None
  end.

Section Gateway.

Variable max_payload : nat.
Variable retry_bound : nat.

(** Modelled from the spec: the gateway's handling of one decoded Command
    (section 4.3): an unknown controller or a malformed command is answered
    at once, anything else goes to the controller's session. *)
Definition handle (sessions : gmap N session) (cmd : Command)
    : gmap N session * Response :=
  match sessions !! target cmd with
  | None => (sessions, failed cmd "unknown controller")
  | Some s =>
      match name cmd with
      | SET_MTA =>
          match decode_address (bytes cmd) with
          | None => (sessions, failed cmd "malformed command")
          | Some address =>
              match setAddress retry_bound s address 0 with
              | (s', inl _) => (<[target cmd := s']> sessions, succeeded cmd [])
              | (s', inr e) => (<[target cmd := s']> sessions, failed cmd (message_of e))
              end
          end
      | UPLOAD =>
          match bytes cmd with
          | [size] =>
              match upload max_payload retry_bound s (N.to_nat (Byte.to_N size)) with
              | (s', inl data) => (<[target cmd := s']> sessions, succeeded cmd data)
              | (s', inr e) => (<[target cmd := s']> sessions, failed cmd (message_of e))
              end
          | _ => (sessions, failed cmd "malformed command")
          end
      | DOWNLOAD =>
          match download max_payload retry_bound s (bytes cmd) with
          | (s', inl _) => (<[target cmd := s']> sessions, succeeded cmd [])
          | (s', inr e) => (<[target cmd := s']> sessions, failed cmd (message_of e))
          end
      end
  end.

End Gateway.

(** ** A sample controller *)

(** A controller whose memory holds [de ad be ef] at 0x10000000, behind a
    fault-free link, with its session in the given state. *)
Definition charger_memory : gmap (N * N) Byte.byte :=
  write_bytes ∅ 0 268435456 [Byte.xde; Byte.xad; Byte.xbe; Byte.xef].

Definition port_controller (st : session_state) : session :=
  {| state := st; pointer := (0, 0)%N;
     transport :=
       {| device := {| memory := charger_memory; mta := 0; mta_extension := 0;
                       compatible := true |};
          faults := []; wire := [] |} |}.

End ProtocolMaster.

(** * Facts about the copier *)

Module CopierFacts.
Import Copier.

(** ** Strings *)

Lemma append_cons (a : ascii) (s t : string) :
  String a s +:+ t = String a (s +:+ t).
Proof. reflexivity. Qed.

Lemma append_assoc (s t u : string) : (s +:+ t) +:+ u = s +:+ (t +:+ u).
Proof.
  induction s as [|a s IH]; [reflexivity|].
  rewrite !append_cons. by rewrite IH.
Qed.

Lemma append_nil_r (s : string) : s +:+ "" = s.
Proof.
  induction s as [|a s IH]; [reflexivity|].
  rewrite append_cons. by rewrite IH.
Qed.

Lemma append_length (s t : string) :
  String.length (s +:+ t) = (String.length s + String.length t)%nat.
Proof.
  induction s as [|a s IH]; [reflexivity|].
  rewrite append_cons. simpl. by rewrite IH.
Qed.

(** ** The extension of a file name *)

Lemma last_period_app (stem suffix tail : string) :
  last_period tail = Some suffix ->
  last_period (stem +:+ tail) = Some suffix.
Proof.
  intros Htail. induction stem as [|a stem IH]; [exact Htail|].
  rewrite append_cons. simpl. by rewrite IH.
Qed.

Lemma last_period_split (s suffix : string) :
  last_period s = Some suffix -> exists stem, s = stem +:+ suffix.
Proof.
  revert suffix. induction s as [|a s IH]; intros suffix; simpl; [done|].
  destruct (last_period s) as [suffix'|] eqn:Hs.
  - intros [= <-]. destruct (IH _ eq_refl) as [stem ->].
    by exists (String a stem).
  - destruct (Ascii.eqb a "."); [|done].
    intros [= <-]. by exists "".
Qed.

(** A file name has extension [.elf] exactly when it is a non-empty stem
    followed by [.elf]: [notes.elf] and [a.b.elf] have it, [.elf] (a
    dot-file), [fw.ELF], [fw.elf.bak] and [fw.elf.] do not. *)
Lemma extension_elf (name : string) :
  extension name = ".elf" <-> exists stem, stem <> "" /\ name = stem +:+ ".elf".
Proof.
  split.
  - unfold extension.
    destruct (String.eqb name "." || String.eqb name ".."); [done|].
    destruct (last_period name) as [suffix|] eqn:Hlast; [|done].
    destruct (String.eqb_spec suffix name) as [->|Hne]; [done|].
    intros ->. destruct (last_period_split _ _ Hlast) as [stem ->].
    exists stem. split; [|done]. by intros ->.
  - intros (stem & Hstem & ->). unfold extension.
    assert (Hlen : (5 <= String.length (stem +:+ ".elf"))%nat).
    { rewrite append_length. destruct stem; [done|]. simpl. lia. }
    destruct (String.eqb_spec (stem +:+ ".elf") ".") as [E|_].
    { rewrite E in Hlen. simpl in Hlen. lia. }
    destruct (String.eqb_spec (stem +:+ ".elf") "..") as [E|_].
    { rewrite E in Hlen. simpl in Hlen. lia. }
    simpl. rewrite (last_period_app stem ".elf" ".elf" eq_refl).
    destruct (String.eqb_spec ".elf" (stem +:+ ".elf")) as [E|_]; [|done].
    apply (f_equal String.length) in E. rewrite append_length in E.
    destruct stem; [done|]. simpl in E. lia.
Qed.

Example extension_plain : extension "charger.elf" = ".elf".
Proof. reflexivity. Qed.
Example extension_two_periods : extension "charger.v2.elf" = ".elf".
Proof. reflexivity. Qed.
Example extension_dot_file : extension ".elf" = "".
Proof. reflexivity. Qed.
Example extension_upper_case : extension "charger.ELF" = ".ELF".
Proof. reflexivity. Qed.
Example extension_trailing_period : extension "charger.elf." = ".".
Proof. reflexivity. Qed.
Example extension_none : extension "elf" = "".
Proof. reflexivity. Qed.
Example extension_dot_dot : extension ".." = "".
Proof. reflexivity. Qed.

(** ** The shape of a run *)

Lemma mount_command_eq (w : world) (link : string) :
  "mount "
    +:+ (if negb (access w (("/dev/" +:+ link) +:+ "1") =? 0)
         then "/dev/" +:+ link else ("/dev/" +:+ link) +:+ "1")
    +:+ " " +:+ mount_point
  = mount_command w link.
Proof.
  unfold mount_command, device_to_mount.
  change (("/dev/" +:+ link) +:+ "1") with ("/dev/" +:+ link +:+ "1").
  destruct (Z.eqb_spec (access w ("/dev/" +:+ link +:+ "1")) 0) as [E|E];
    case_decide; done.
Qed.

Lemma mounted_outcome (w : world) (link : string)
    (fs : gmap string (list Byte.byte)) (calls : list event) (err : option string) :
  readlink w "/dev/elf_usb" = Some link -> mkdir_passes w ->
  system w (mount_command w link) = 0 ->
  try_block w = (fs, calls, err) ->
  run w
    (if negb (system w "umount /mnt/elf_usb" =? 0)
     then finish 1
            ((ev_system (mount_command w link) :: calls ++ catch_clause err
                ++ [ev_system "umount /mnt/elf_usb"]) ++ [ev_cerr "Unmount failed."]) fs
     else finish 0
            ((ev_system (mount_command w link) :: calls ++ catch_clause err
                ++ [ev_system "umount /mnt/elf_usb"])
               ++ [ev_cout "Files copied successfully."]) fs).
Proof.
  intros Hlink Hpass Hm Htry.
  pose proof (run_mounted w link fs calls err Hlink Hpass Hm Htry) as Hrun.
  destruct (Z.eqb_spec (system w "umount /mnt/elf_usb") 0) as [Hu|Hu];
    destruct (decide (system w "umount /mnt/elf_usb" = 0)) as [Hd|Hd];
    try done; simpl; rewrite <- !(assoc_L (++)); exact Hrun.
Qed.

Lemma main_run (w : world) : run w (main w).
Proof.
  unfold main.
  destruct (readlink w "/dev/elf_usb") as [link|] eqn:Hlink.
  2:{ apply run_stopped; [|done..]. rewrite Hlink. by intros [[? [=]] _]. }
  rewrite mount_command_eq.
  change mount_point with "/mnt/elf_usb".
  destruct (mkdir w "/mnt/elf_usb") as [|errno] eqn:Hmkdir.
  - assert (Hpass : mkdir_passes w) by (by left).
    destruct (Z.eqb_spec (system w (mount_command w link)) 0) as [Hm|Hm]; simpl.
    + destruct (try_block w) as [[fs calls] err] eqn:Htry.
      change ("umount " +:+ "/mnt/elf_usb") with "umount /mnt/elf_usb".
      by apply mounted_outcome.
    + by apply run_not_mounted.
  - destruct (Z.eqb_spec errno EEXIST) as [->|Hne]; simpl.
    + assert (Hpass : mkdir_passes w) by (by right).
      destruct (Z.eqb_spec (system w (mount_command w link)) 0) as [Hm|Hm]; simpl.
      * destruct (try_block w) as [[fs calls] err] eqn:Htry.
        change ("umount " +:+ "/mnt/elf_usb") with "umount /mnt/elf_usb".
        by apply mounted_outcome.
      * by apply run_not_mounted.
    + apply run_stopped; [|done..].
      intros [_ [H|H]]; rewrite Hmkdir in H; [done|]. by injection H.
Qed.

(** ** The copy loop *)

Lemma selected_spec (entry : directory_entry) :
  selected entry = true
  <-> status entry = returned regular /\ extension (filename entry) = ".elf".
Proof.
  unfold selected. destruct (status entry) as [t|what].
  - rewrite andb_true_iff, String.eqb_eq. split.
    + intros [Ht ?]. by destruct t.
    + by intros [[= ->] ?].
  - split; [done|]. by intros [? _].
Qed.

Lemma copy_entries_cons (w : world) (entry : directory_entry)
    (rest : list directory_entry) (fs : gmap string (list Byte.byte)) :
  copy_entries w (entry :: rest) fs =
    match status entry with
    | threw what => (fs, [], Some what)
    | returned _ =>
        if selected entry then
          match copy w (source_path entry) (target_path entry) fs with
          | (fs', threw what) => (fs', [copy_call entry], Some what)
          | (fs', returned _) =>
              let '(fs'', calls, err) := copy_entries w rest fs' in
              (fs'', copy_call entry :: calls, err)
          end
        else copy_entries w rest fs
    end.
Proof. unfold selected. simpl. by destruct (status entry). Qed.

(** Every call of [copy] the loop makes is for a selected entry. *)
Lemma copy_entries_calls (w : world) (entries : list directory_entry) :
  forall fs fs' calls err,
    copy_entries w entries fs = (fs', calls, err) ->
    forall e, e ∈ calls ->
      exists entry, entry ∈ entries /\ selected entry = true /\ e = copy_call entry.
Proof.
  induction entries as [|entry rest IH]; intros fs fs' calls err.
  { intros [= <- <- <-] e He. by apply elem_of_nil in He. }
  rewrite copy_entries_cons.
  destruct (status entry) as [t|what] eqn:Hst.
  2:{ intros [= <- <- <-] e He. by apply elem_of_nil in He. }
  destruct (selected entry) eqn:Hsel.
  - destruct (copy w (source_path entry) (target_path entry) fs) as [fs0 [[]|what]].
    + destruct (copy_entries w rest fs0) as [[fs1 calls1] err1] eqn:Hrest.
      intros [= <- <- <-] e [->|He]%elem_of_cons.
      * exists entry. split; [left|done].
      * destruct (IH _ _ _ _ Hrest e He) as (entry' & ? & ? & ?).
        exists entry'. split; [by right|done].
    + intros [= <- <- <-] e ->%list_elem_of_singleton.
      exists entry. split; [left|done].
  - intros Hrest e He. destruct (IH _ _ _ _ Hrest e He) as (entry' & ? & ? & ?).
    exists entry'. split; [by right|done].
Qed.





(** ** The claims *)

Lemma mounted_run (w : world) :
  mounted w ->
  exists link fs calls err,
    readlink w "/dev/elf_usb" = Some link /\ mkdir_passes w
    /\ system w (mount_command w link) = 0
    /\ try_block w = (fs, calls, err)
    /\ main w =
         finish (if decide (system w "umount /mnt/elf_usb" = 0) then 0 else 1)
           (ev_system (mount_command w link) :: calls ++ catch_clause err
              ++ [ev_system "umount /mnt/elf_usb";
                  if decide (system w "umount /mnt/elf_usb" = 0)
                  then ev_cout "Files copied successfully."
                  else ev_cerr "Unmount failed."])
           fs.
Proof.
  intros (command & Hhead & Hok).
  destruct (main_run w) as [w tr _ Hcmds _|w link msg _ _ Hfail|w link fs calls err].
  - simpl in Hhead. by rewrite Hcmds in Hhead.
  - simpl in Hhead. injection Hhead as <-. done.
  - by exists link, fs, calls, err.
Qed.

Lemma commands_calls (calls : list event) :
  (forall e, e ∈ calls -> exists entry, e = copy_call entry) ->
  commands calls = [] /\ forall rest, copies (calls ++ rest) = copies calls ++ copies rest.
Proof.
  intros Hcalls. split.
  - induction calls as [|e calls IH]; [done|].
    destruct (Hcalls e) as [entry ->]; [left|]. simpl.
    apply IH. intros e' He'. apply Hcalls. by right.
  - intros rest. unfold copies. apply omap_app.
Qed.

Lemma try_block_calls (w : world) (fs : gmap string (list Byte.byte))
    (calls : list event) (err : option string) :
  try_block w = (fs, calls, err) ->
  forall e, e ∈ calls ->
    exists entries entry,
      directory_iterator w "/mnt/elf_usb/elf/" = returned entries
      /\ entry ∈ entries /\ selected entry = true /\ e = copy_call entry.
Proof.
  unfold try_block. change source_dir with "/mnt/elf_usb/elf/".
  destruct (create_directories w target_dir) as [[]|what].
  2:{ intros [= <- <- <-] e He. by apply elem_of_nil in He. }
  destruct (directory_iterator w "/mnt/elf_usb/elf/") as [entries|what].
  2:{ intros [= <- <- <-] e He. by apply elem_of_nil in He. }
  intros Hloop e He.
  destruct (copy_entries_calls _ _ _ _ _ _ Hloop e He) as (entry & ? & ? & ?).
  by exists entries, entry.
Qed.


Lemma commands_catch_clause (err : option string) : commands (catch_clause err) = [].
Proof. by destruct err. Qed.

Lemma copies_catch_clause (err : option string) : copies (catch_clause err) = [].
Proof. by destruct err. Qed.

Lemma copies_copy_calls (entries : list directory_entry) :
  copies (copy_call <$> entries)
  = (fun entry => (source_path entry, target_path entry)) <$> entries.
Proof.
  induction entries as [|entry rest IH]; [done|].
  rewrite !fmap_cons. unfold copies in *. simpl. f_equal. exact IH.
Qed.

(** What a run that got past the mount hands to [system] and to [copy]. *)
Lemma mounted_trace (mount : string) (calls : list event)
    (err : option string) (last : event) :
  (forall e, e ∈ calls -> exists entry, e = copy_call entry) ->
  (last = ev_cout "Files copied successfully." \/ last = ev_cerr "Unmount failed.") ->
  let tr := ev_system mount :: calls ++ catch_clause err
              ++ [ev_system "umount /mnt/elf_usb"; last] in
  commands tr = [mount; "umount /mnt/elf_usb"] /\ copies tr = copies calls.
Proof.
  intros Hcalls Hlast tr. subst tr.
  destruct (commands_calls calls Hcalls) as [Hnone Happ].
  unfold commands in *. split.
  - simpl. rewrite !omap_app, Hnone. fold (commands (catch_clause err)).
    rewrite commands_catch_clause. by destruct Hlast as [-> | ->].
  - unfold copies. simpl. fold (copies (calls ++ catch_clause err
      ++ [ev_system "umount /mnt/elf_usb"; last])).
    rewrite Happ. unfold copies at 2. rewrite omap_app.
    fold (copies (catch_clause err)). rewrite copies_catch_clause.
    destruct Hlast as [-> | ->]; simpl; by rewrite (right_id_L [] (++)).
Qed.

Lemma mounted_commands (w : world) (link : string)
    (fs : gmap string (list Byte.byte)) (calls : list event) (err : option string) :
  try_block w = (fs, calls, err) ->
  let tr := ev_system (mount_command w link) :: calls ++ catch_clause err
              ++ [ev_system "umount /mnt/elf_usb";
                  if decide (system w "umount /mnt/elf_usb" = 0)
                  then ev_cout "Files copied successfully."
                  else ev_cerr "Unmount failed."] in
  commands tr = [mount_command w link; "umount /mnt/elf_usb"]
  /\ copies tr = copies calls.
Proof.
  intros Htry. apply mounted_trace.
  - intros e He. destruct (try_block_calls _ _ _ _ Htry e He) as (? & entry & _ & _ & _ & ->).
    by exists entry.
  - case_decide; [by left|by right].
Qed.

(** C10.  Every command a run hands to [system], the unmount of
    [/mnt/elf_usb] apart, mounts at [/mnt/elf_usb] the device behind the
    [/dev/elf_usb] symlink: the first partition [/dev/<link>1] if [access]
    finds that path, the whole device [/dev/<link>] otherwise.  When
    [readlink] resolved the symlink and line 27 let the run continue, that
    mount command is issued, before any other command. *)
Theorem mounts_first_partition_or_whole_device (w : world) :
  (forall command, command ∈ commands (trace (main w)) ->
     command = "umount /mnt/elf_usb"
     \/ exists link,
          readlink w "/dev/elf_usb" = Some link
          /\ command = "mount " +:+ device_to_mount w link +:+ " /mnt/elf_usb")
  /\ (forall link,
       readlink w "/dev/elf_usb" = Some link ->
       mkdir_passes w ->
       head (commands (trace (main w)))
       = Some ("mount " +:+ device_to_mount w link +:+ " /mnt/elf_usb")).
Proof.
  destruct (main_run w)
    as [w tr Hstop Hnone _|w link' msg Hlink' _ _|w link' fs calls err Hlink' _ _ Htry].
  - simpl. rewrite Hnone. split.
    + intros command Hin. by apply elem_of_nil in Hin.
    + intros link Hlink Hpass. destruct Hstop. by rewrite Hlink.
  - split.
    + intros command ->%list_elem_of_singleton. right. by exists link'.
    + intros link Hlink Hpass. rewrite Hlink in Hlink'. by injection Hlink' as <-.
  - destruct (mounted_commands w link' _ _ _ Htry) as [Hcmds _].
    unfold trace, finish. rewrite Hcmds. split.
    + intros command [->|Hin]%elem_of_cons.
      * right. by exists link'.
      * left. by apply list_elem_of_singleton in Hin.
    + intros link Hlink Hpass. rewrite Hlink in Hlink'. by injection Hlink' as <-.
Qed.

Lemma mounts_first_partition_or_whole_device_witness :
  head (commands (trace (main mixed_stick))) = Some "mount /dev/sdb1 /mnt/elf_usb".
Proof.
  exact (proj2 (mounts_first_partition_or_whole_device mixed_stick) "sdb" eq_refl
           (or_intror eq_refl)).
Defined.

(** C9, as the program has it.  A run whose mount command returned 0 always
    hands [umount /mnt/elf_usb] to [system] afterwards, as its last command;
    an error thrown in the [try] block is written to [cerr] and does not
    change that, and the exit status then depends on the unmount alone.
    The exit status is 0 exactly when [readlink] succeeded, [mkdir]
    succeeded or failed with [EEXIST], and the mount and unmount commands
    both returned 0. *)
Theorem unmounts_after_mount_and_exit_status (w : world) :
  (mounted w ->
     exists mount,
       commands (trace (main w)) = [mount; "umount /mnt/elf_usb"]
       /\ exit_status (main w)
          = (if decide (system w "umount /mnt/elf_usb" = 0) then 0 else 1)
       /\ forall what, (try_block w).2 = Some what ->
            ev_cerr ("Filesystem error: " +:+ what) ∈ trace (main w))
  /\ (exit_status (main w) = 0 <->
       exists link,
         readlink w "/dev/elf_usb" = Some link
         /\ (mkdir w "/mnt/elf_usb" = mkdir_done
             \/ mkdir w "/mnt/elf_usb" = mkdir_failed EEXIST)
         /\ system w ("mount " +:+ device_to_mount w link +:+ " /mnt/elf_usb") = 0
         /\ system w "umount /mnt/elf_usb" = 0).
Proof.
  split.
  - intros Hmounted.
    destruct (mounted_run w Hmounted) as (link & fs & calls & err & _ & _ & _ & Htry & ->).
    exists (mount_command w link). unfold trace, exit_status, finish.
    destruct (mounted_commands w link _ _ _ Htry) as [-> _].
    split; [done|]. split; [done|].
    intros what. rewrite Htry. simpl. intros ->.
    apply elem_of_cons. right. apply elem_of_app. right.
    apply elem_of_app. left. simpl. left.
  - destruct (main_run w) as [w tr Hstop _ _|w link msg Hlink Hpass Hfail|w link fs calls err Hlink Hpass Hm Htry].
    + split; [done|]. intros (link & Hlink & Hpass & _). destruct Hstop.
      by rewrite Hlink.
    + split; [done|]. intros (link' & Hlink' & _ & Hm & _).
      rewrite Hlink in Hlink'. by injection Hlink' as <-.
    + unfold exit_status, finish. split.
      * intros Hexit. exists link. repeat split; try done. by case_decide.
      * intros (_ & _ & _ & _ & Hu). by case_decide.
Qed.

Lemma unmounts_after_mount_and_exit_status_witness :
  commands (trace (main read_only_target))
    = ["mount /dev/sdb1 /mnt/elf_usb"; "umount /mnt/elf_usb"]
  /\ ev_cerr "Filesystem error: Permission denied" ∈ trace (main read_only_target)
  /\ exit_status (main read_only_target) = 0.
Proof.
  destruct (unmounts_after_mount_and_exit_status read_only_target) as [Hmount Hexit].
  destruct Hmount as (mount & Hcmds & _ & Hreported).
  { exists "mount /dev/sdb1 /mnt/elf_usb". split; reflexivity. }
  split; [|split].
  - rewrite Hcmds. f_equal. apply (f_equal head) in Hcmds. simpl in Hcmds.
    vm_compute in Hcmds. by injection Hcmds.
  - apply (Hreported "Permission denied"). reflexivity.
  - apply Hexit. exists "sdb". repeat split; try reflexivity. right. reflexivity.
Defined.

(** C9 as stated fails: on a host where [/mnt/elf_usb] is already there,
    [mkdir] does not succeed (it returns -1 with [EEXIST]) and the run still
    exits with status 0. *)
Lemma exit_zero_although_mkdir_failed :
  mkdir mixed_stick "/mnt/elf_usb" = mkdir_failed EEXIST
  /\ mkdir mixed_stick "/mnt/elf_usb" <> mkdir_done
  /\ exit_status (main mixed_stick) = 0.
Proof. split; [reflexivity|]. split; [discriminate|reflexivity]. Qed.




(** ** Further properties of a run *)

Lemma mount_command_not_umount (w : world) (link : string) :
  mount_command w link <> "umount /mnt/elf_usb".
Proof. unfold mount_command. rewrite !append_cons. discriminate. Qed.

(** X1.  A run that does not get past the mount (readlink failed, mkdir
    failed with an errno other than EEXIST, or the mount command returned
    non-zero) exits with status 1, calls [copy] for nothing, leaves every
    file as it was and never hands the unmount command to [system]. *)
Theorem nothing_without_mount (w : world) :
  ~ mounted w ->
  exit_status (main w) = 1
  /\ copies (trace (main w)) = []
  /\ files_after (main w) = files w
  /\ "umount /mnt/elf_usb" ∉ commands (trace (main w)).
Proof.
  unfold mounted.
  destruct (main_run w) as [w tr _ Hcmds Hnone|w link msg _ _ _|w link fs calls err _ _ Hm Htry];
    intros Hnot.
  - simpl. rewrite Hcmds. repeat split; try done. apply not_elem_of_nil.
  - repeat split; try done.
    change (commands (trace (finish 1 [ev_system (mount_command w link); ev_cerr msg]
                        (files w))))
      with [mount_command w link].
    intros Hin. apply list_elem_of_singleton in Hin.
    exact (mount_command_not_umount w link (eq_sym Hin)).
  - destruct Hnot. exists (mount_command w link). split; [|done].
    unfold trace, finish. by destruct (mounted_commands w link _ _ _ Htry) as [-> _].
Qed.

Lemma nothing_without_mount_witness :
  exit_status (main mount_refused) = 1
  /\ copies (trace (main mount_refused)) = []
  /\ files_after (main mount_refused) = files mount_refused
  /\ "umount /mnt/elf_usb" ∉ commands (trace (main mount_refused)).
Proof.
  apply nothing_without_mount.
  intros (command & Hhead & Hok). vm_compute in Hhead.
  injection Hhead as <-. vm_compute in Hok. discriminate.
Defined.

Lemma same_host_mount_command (w w' : world) (link : string) :
  same_host w w' -> mount_command w link = mount_command w' link.
Proof.
  intros (_ & Haccess & _). unfold mount_command, device_to_mount.
  by rewrite Haccess.
Qed.

Lemma same_host_mkdir_passes (w w' : world) :
  same_host w w' -> mkdir_passes w -> mkdir_passes w'.
Proof. intros (_ & _ & Hmkdir & _). unfold mkdir_passes. by rewrite Hmkdir. Qed.

Lemma same_host_sym (w w' : world) : same_host w w' -> same_host w' w.
Proof. intros (? & ? & ? & ?). by repeat split. Qed.

(** X2.  The exit status and the commands handed to [system] do not depend
    on the copy step: two runs whose [readlink], [access], [mkdir] and
    [system] calls answer alike end with the same status and issue the same
    commands, whatever the directory holds and whichever filesystem calls
    throw. *)
Theorem exit_status_ignores_copy_step (w w' : world) :
  same_host w w' ->
  exit_status (main w) = exit_status (main w')
  /\ commands (trace (main w)) = commands (trace (main w')).
Proof.
  intros Hsame. pose proof Hsame as (Hlink & _ & _ & Hsys).
  destruct (main_run w) as [w tr Hstop Hcmds _|w link msg Hl Hp Hfail|w link fs calls err Hl Hp Hm Htry];
    destruct (main_run w') as [w' tr' Hstop' Hcmds' _|w' link' msg' Hl' Hp' Hfail'|w' link' fs' calls' err' Hl' Hp' Hm' Htry'].
  - simpl. by rewrite Hcmds, Hcmds'.
  - destruct Hstop. rewrite Hlink, Hl'. split; [done|].
    apply (same_host_mkdir_passes w' w); [by apply same_host_sym|done].
  - destruct Hstop. rewrite Hlink, Hl'. split; [done|].
    apply (same_host_mkdir_passes w' w); [by apply same_host_sym|done].
  - destruct Hstop'. rewrite <- Hlink, Hl. split; [done|].
    by apply (same_host_mkdir_passes w w').
  - rewrite Hl, Hl' in Hlink. injection Hlink as <-.
    simpl. by rewrite (same_host_mount_command w w').
  - rewrite Hl, Hl' in Hlink. injection Hlink as <-.
    rewrite (same_host_mount_command w w'), Hsys in Hfail by done. done.
  - destruct Hstop'. rewrite <- Hlink, Hl. split; [done|].
    by apply (same_host_mkdir_passes w w').
  - rewrite Hl, Hl' in Hlink. injection Hlink as <-.
    rewrite (same_host_mount_command w w'), Hsys in Hm by done. done.
  - rewrite Hl, Hl' in Hlink. injection Hlink as <-.
    unfold exit_status, trace, finish.
    destruct (mounted_commands w link _ _ _ Htry) as [-> _].
    destruct (mounted_commands w' link _ _ _ Htry') as [-> _].
    rewrite (same_host_mount_command w w') by done. rewrite !Hsys.
    by repeat case_decide.
Qed.

Lemma exit_status_ignores_copy_step_witness :
  exit_status (main mixed_stick) = exit_status (main read_only_target)
  /\ commands (trace (main mixed_stick)) = commands (trace (main read_only_target)).
Proof.
  apply exit_status_ignores_copy_step. by repeat split.
Defined.

(** X6.  The loop's condition holds exactly for an entry that is a regular
    file (symlinks followed) and whose name is a non-empty stem followed by
    [.elf]: a file named [.elf], an upper-case [.ELF] or a name with
    anything after [.elf] is not selected. *)
Theorem selected_regular_with_elf_stem (entry : directory_entry) :
  selected entry = true
  <-> status entry = returned regular
      /\ exists stem, stem <> "" /\ filename entry = stem +:+ ".elf".
Proof. rewrite selected_spec. by rewrite extension_elf. Qed.

(** X5.  Files are copied only while the device is mounted: every call of
    [copy] in a run comes after a mount command that returned 0, the first
    event of the run, and before the unmount command. *)
Theorem copies_between_mount_and_umount (w : world) (i : nat) (from to : string) :
  trace (main w) !! i = Some (ev_copy from to) ->
  exists mount j,
    trace (main w) !! 0%nat = Some (ev_system mount)
    /\ system w mount = 0
    /\ (0 < i < j)%nat
    /\ trace (main w) !! j = Some (ev_system "umount /mnt/elf_usb").
Proof.
  destruct (main_run w) as [w tr _ _ Hnone|w link msg _ _ _|w link fs calls err _ _ Hm Htry].
  - simpl. intros Hi. apply list_elem_of_lookup_2 in Hi.
    assert (Hin : (from, to) ∈ copies tr).
    { unfold copies. apply list_elem_of_omap. by exists (ev_copy from to). }
    rewrite Hnone in Hin. by apply elem_of_nil in Hin.
  - simpl. by destruct i as [|[|[|i]]].
  - unfold trace, finish. intros Hi.
    exists (mount_command w link), (S (length calls + length (catch_clause err))).
    split; [done|]. split; [done|].
    destruct i as [|i]; [done|]. simpl in Hi.
    assert (Hshort : (i < length calls)%nat).
    { destruct (decide (i < length calls)%nat) as [|Hlong]; [done|].
      rewrite lookup_app_r in Hi by lia.
      destruct err as [what|]; simpl in Hi.
      - destruct (i - length calls)%nat as [|[|[|k]]]; simpl in Hi; try done.
        by case_decide.
      - destruct (i - length calls)%nat as [|[|k]]; simpl in Hi; try done.
        by case_decide. }
    split; [lia|].
    simpl. rewrite lookup_app_r by lia. rewrite lookup_app_r by lia.
    by replace (length calls + length (catch_clause err) - length calls
                - length (catch_clause err))%nat with O by lia.
Qed.

Lemma copies_between_mount_and_umount_witness :
  exists mount j,
    trace (main mixed_stick) !! 0%nat = Some (ev_system mount)
    /\ system mixed_stick mount = 0
    /\ (0 < 2 < j)%nat
    /\ trace (main mixed_stick) !! j = Some (ev_system "umount /mnt/elf_usb").
Proof.
  exact (copies_between_mount_and_umount mixed_stick 2
           "/mnt/elf_usb/elf/cabinet.elf" "/main_module/data/elf/cabinet.elf" eq_refl).
Defined.

Lemma copy_entries_stops (w : world) (entries : list directory_entry) :
  forall fs fs' calls what,
    copy_entries w entries fs = (fs', calls, Some what) ->
    exists before failing after,
      entries = before ++ failing :: after
      /\ (status failing = threw what
            /\ calls = copy_call <$> filter selected before
          \/ selected failing = true
            /\ (exists fs0,
                  (copy w (source_path failing) (target_path failing) fs0).2
                  = threw what)
            /\ calls = (copy_call <$> filter selected before) ++ [copy_call failing]).
Proof.
  induction entries as [|entry rest IH]; intros fs fs' calls what; [done|].
  rewrite copy_entries_cons.
  destruct (status entry) as [t|what'] eqn:Hst.
  2:{ intros [= <- <- ->]. exists [], entry, rest. split; [done|]. by left. }
  destruct (selected entry) eqn:Hsel.
  - destruct (copy w (source_path entry) (target_path entry) fs)
      as [fs0 [[]|what']] eqn:Hcopy.
    + destruct (copy_entries w rest fs0) as [[fs1 calls1] err1] eqn:Hrest.
      intros [= <- <- ->].
      destruct (IH _ _ _ _ Hrest) as (before & failing & after & -> & Hfail).
      exists (entry :: before), failing, after.
      rewrite filter_cons_True by (by rewrite Hsel). split; [done|].
      rewrite fmap_cons.
      destruct Hfail as [[? ->]|(? & ? & ->)]; [by left|by right].
    + intros [= <- <- ->]. exists [], entry, rest. split; [done|].
      right. split; [done|]. split; [|done]. exists fs. by rewrite Hcopy.
  - intros Hrest.
    destruct (IH _ _ _ _ Hrest) as (before & failing & after & -> & Hfail).
    exists (entry :: before), failing, after.
    rewrite filter_cons_False by (rewrite Hsel; intros []). done.
Qed.

(** X3.  When a filesystem call of the loop throws, the loop stops at that
    entry: [copy] has been called for exactly the selected entries before
    it, in order, then for the failing entry if it is the copy that threw,
    and for no entry after it. *)
Theorem copy_stops_at_first_error (w : world) (entries : list directory_entry)
    (what : string) :
  mounted w ->
  create_directories w "/main_module/data/elf/" = returned () ->
  directory_iterator w "/mnt/elf_usb/elf/" = returned entries ->
  (try_block w).2 = Some what ->
  exists before failing after,
    entries = before ++ failing :: after
    /\ (status failing = threw what
          /\ copies (trace (main w))
             = (fun entry => (source_path entry, target_path entry))
                 <$> filter selected before
        \/ selected failing = true
          /\ (exists fs0,
                (copy w (source_path failing) (target_path failing) fs0).2
                = threw what)
          /\ copies (trace (main w))
             = ((fun entry => (source_path entry, target_path entry))
                  <$> filter selected before)
               ++ [(source_path failing, target_path failing)]).
Proof.
  intros Hmounted Hcreate Hdir Herr.
  destruct (mounted_run w Hmounted) as (link & fs & calls & err & _ & _ & _ & Htry & ->).
  rewrite Htry in Herr. simpl in Herr. subst err.
  unfold trace, finish.
  destruct (mounted_commands w link _ _ _ Htry) as [_ ->].
  unfold try_block in Htry.
  change target_dir with "/main_module/data/elf/" in Htry.
  change source_dir with "/mnt/elf_usb/elf/" in Htry.
  rewrite Hcreate, Hdir in Htry.
  destruct (copy_entries_stops _ _ _ _ _ _ Htry)
    as (before & failing & after & -> & Hfail).
  exists before, failing, after. split; [done|].
  destruct Hfail as [[? ->]|(? & ? & ->)]; [left|right].
  - by rewrite copies_copy_calls.
  - split; [done|]. split; [done|].
    change [copy_call failing] with (copy_call <$> [failing]).
    rewrite <- fmap_app, copies_copy_calls. by rewrite fmap_app.
Qed.

Lemma copy_stops_at_first_error_witness :
  exists before failing after,
    [port_elf; file "notes.txt" regular [Byte.x68]; cabinet_elf;
     file "sensor.elf" regular [Byte.x02]] = before ++ failing :: after
    /\ (status failing = threw "Permission denied"
          /\ copies (trace (main half_written))
             = (fun entry => (source_path entry, target_path entry))
                 <$> filter selected before
        \/ selected failing = true
          /\ (exists fs0,
                (copy half_written (source_path failing) (target_path failing) fs0).2
                = threw "Permission denied")
          /\ copies (trace (main half_written))
             = ((fun entry => (source_path entry, target_path entry))
                  <$> filter selected before)
               ++ [(source_path failing, target_path failing)]).
Proof.
  apply copy_stops_at_first_error.
  - exists "mount /dev/sdb1 /mnt/elf_usb". split; reflexivity.
  - reflexivity.
  - reflexivity.
  - reflexivity.
Defined.

(** X7.  When the target directory cannot be created or the stick has no
    readable [elf] directory, the run copies nothing and leaves every file
    as it was, reports the error on [cerr], and still ends by the unmount
    alone: status 0 and "Files copied successfully." if it returns 0. *)
Theorem nothing_copied_without_directories (w : world) (what : string) :
  mounted w ->
  create_directories w "/main_module/data/elf/" = threw what
  \/ create_directories w "/main_module/data/elf/" = returned ()
     /\ directory_iterator w "/mnt/elf_usb/elf/" = threw what ->
  copies (trace (main w)) = []
  /\ files_after (main w) = files w
  /\ ev_cerr ("Filesystem error: " +:+ what) ∈ trace (main w)
  /\ (system w "umount /mnt/elf_usb" = 0 ->
      exit_status (main w) = 0
      /\ last (trace (main w)) = Some (ev_cout "Files copied successfully.")).
Proof.
  intros Hmounted Hthrown.
  destruct (mounted_run w Hmounted) as (link & fs & calls & err & _ & _ & _ & Htry & ->).
  assert (Hnone : (fs, calls, err) = (files w, [], Some what)).
  { rewrite <- Htry. unfold try_block.
    change target_dir with "/main_module/data/elf/".
    change source_dir with "/mnt/elf_usb/elf/".
    by destruct Hthrown as [-> | [-> ->]]. }
  injection Hnone as -> -> ->.
  unfold trace, files_after, exit_status, finish.
  destruct (decide (system w "umount /mnt/elf_usb" = 0)) as [Hu|Hu];
    (split; [done|]); (split; [done|]);
    (split; [simpl; apply elem_of_cons; right; left|done]).
Qed.

Lemma nothing_copied_without_directories_witness :
  copies (trace (main no_elf_directory)) = []
  /\ files_after (main no_elf_directory) = files no_elf_directory
  /\ ev_cerr "Filesystem error: No such file or directory" ∈ trace (main no_elf_directory)
  /\ (system no_elf_directory "umount /mnt/elf_usb" = 0 ->
      exit_status (main no_elf_directory) = 0
      /\ last (trace (main no_elf_directory))
         = Some (ev_cout "Files copied successfully.")).
Proof.
  apply (nothing_copied_without_directories no_elf_directory "No such file or directory").
  - exists "mount /dev/sdb /mnt/elf_usb". split; reflexivity.
  - right. split; reflexivity.
Defined.

(** X8.  The exit status and the last line written agree: a run either
    exits with status 0 after writing "Files copied successfully." to
    [cout], or exits with status 1 after naming the step that failed
    (readlink, mkdir, mount or unmount) on the error stream. *)
Theorem exit_status_matches_last_message (w : world) :
  exit_status (main w) = 0
  /\ last (trace (main w)) = Some (ev_cout "Files copied successfully.")
  \/ exit_status (main w) = 1
     /\ (last (trace (main w)) = Some (ev_perror "readlink failed")
         \/ last (trace (main w)) = Some (ev_perror "mkdir failed")
         \/ last (trace (main w))
            = Some (ev_cerr "Mount failed. Ensure the program is run with sudo and the device is correct.")
         \/ last (trace (main w)) = Some (ev_cerr "Unmount failed.")).
Proof.
  unfold main.
  destruct (readlink w "/dev/elf_usb") as [buf|]; [|right; by auto].
  destruct (match mkdir w mount_point with
            | mkdir_done => false
            | mkdir_failed errno => negb (errno =? EEXIST)
            end); [right; by auto|].
  destruct (negb (system w _ =? 0)); [right; by auto 6|].
  destruct (try_block w) as [[fs calls] err].
  destruct (negb (system w _ =? 0)); cbn [exit_status trace finish];
    rewrite last_snoc; [right|left]; by auto 6.
Qed.

Lemma try_block_calls_not_cerr (w : world) (fs : gmap string (list Byte.byte))
    (calls : list event) (err : option string) (msg : string) :
  try_block w = (fs, calls, err) -> ev_cerr msg ∉ calls.
Proof.
  intros Htry Hin.
  by destruct (try_block_calls _ _ _ _ Htry _ Hin) as (_ & entry & _ & _ & _ & ?).
Qed.

(** The trace of a run, by how far the run got. *)
Lemma trace_cases (w : world) :
  (exists msg, trace (main w) = [ev_perror msg])
  \/ (exists link,
        trace (main w)
        = [ev_system (mount_command w link);
           ev_cerr "Mount failed. Ensure the program is run with sudo and the device is correct."])
  \/ (exists link fs calls err,
        system w (mount_command w link) = 0
        /\ try_block w = (fs, calls, err)
        /\ trace (main w)
           = ev_system (mount_command w link) :: calls ++ catch_clause err
               ++ [ev_system "umount /mnt/elf_usb";
                   if decide (system w "umount /mnt/elf_usb" = 0)
                   then ev_cout "Files copied successfully."
                   else ev_cerr "Unmount failed."]).
Proof.
  unfold main.
  destruct (readlink w "/dev/elf_usb") as [link|]; [|left; by eexists].
  rewrite mount_command_eq.
  destruct (match mkdir w mount_point with
            | mkdir_done => false
            | mkdir_failed errno => negb (errno =? EEXIST)
            end); [left; by eexists|].
  destruct (Z.eqb_spec (system w (mount_command w link)) 0) as [Hm|Hm]; simpl.
  2:{ right. left. by exists link. }
  right. right. destruct (try_block w) as [[fs calls] err] eqn:Htry.
  exists link, fs, calls, err. split; [done|]. split; [done|].
  change ("umount " +:+ mount_point) with "umount /mnt/elf_usb".
  destruct (Z.eqb_spec (system w "umount /mnt/elf_usb") 0) as [Hu|Hu];
    case_decide; try done; simpl; by rewrite <- !(assoc_L (++)).
Qed.

(** X9.  A "Filesystem error: ..." line on [cerr] is genuine: it is written
    exactly when the run got past the mount and a call of the [try] block
    threw, and it carries that error's text. *)
Theorem filesystem_error_reported_iff_thrown (w : world) (what : string) :
  ev_cerr ("Filesystem error: " +:+ what) ∈ trace (main w)
  <-> mounted w /\ (try_block w).2 = Some what.
Proof.
  split.
  - intros Hin.
    destruct (trace_cases w)
      as [[msg Htr]|[[link Htr]|(link & fs & calls & err & Hm & Htry & Htr)]].
    + rewrite Htr in Hin. by apply list_elem_of_singleton in Hin.
    + rewrite Htr in Hin.
      apply elem_of_cons in Hin as [[=]|Hin].
      apply list_elem_of_singleton in Hin. discriminate.
    + split.
      * exists (mount_command w link). split; [|done]. rewrite Htr.
        by destruct (mounted_commands w link _ _ _ Htry) as [-> _].
      * rewrite Htr in Hin. rewrite Htry. simpl.
        apply elem_of_cons in Hin as [[=]|Hin].
        apply elem_of_app in Hin as [Hin|Hin].
        { by apply (try_block_calls_not_cerr _ _ _ _ _ Htry) in Hin. }
        apply elem_of_app in Hin as [Hin|Hin].
        { destruct err as [what'|]; simpl in Hin; [|by apply elem_of_nil in Hin].
          apply list_elem_of_singleton in Hin. injection Hin as Hin.
          by apply (inj _) in Hin as ->. }
        apply elem_of_cons in Hin as [[=]|Hin].
        apply list_elem_of_singleton in Hin.
        case_decide; discriminate.
  - intros [Hmounted Herr].
    destruct (mounted_run w Hmounted) as (link & fs & calls & err & _ & _ & _ & Htry & ->).
    rewrite Htry in Herr. simpl in Herr. subst err.
    unfold trace, finish. apply elem_of_cons. right. apply elem_of_app. right.
    apply elem_of_app. left. simpl. left.
Qed.

Lemma filesystem_error_reported_iff_thrown_witness :
  mounted half_written /\ (try_block half_written).2 = Some "Permission denied".
Proof.
  apply (proj1 (filesystem_error_reported_iff_thrown half_written "Permission denied")).
  vm_compute. do 3 right. left.
Defined.

End CopierFacts.

(** * Facts about the Protocol Master model *)

Module ProtocolMasterFacts.
Import ProtocolMaster.

(** ** The controller's memory *)

Lemma write_bytes_below (bytes : list Byte.byte) :
  forall mem extension address extension' address',
    (extension' <> extension \/ address' < address)%N ->
    write_bytes mem extension address bytes !! (extension', address')
    = mem !! (extension', address').
Proof.
  induction bytes as [|b bytes IH]; intros mem extension address extension' address' Hbelow;
    [done|].
  simpl. rewrite IH by lia. apply lookup_insert_ne.
  intros [= -> ->]. lia.
Qed.

Lemma read_bytes_write_bytes (bytes : list Byte.byte) :
  forall mem extension address,
    read_bytes (write_bytes mem extension address bytes) extension address
      (length bytes) = bytes.
Proof.
  induction bytes as [|b bytes IH]; intros mem extension address; [done|].
  simpl. rewrite IH. f_equal.
  rewrite write_bytes_below by lia. by rewrite lookup_insert_eq.
Qed.

Lemma read_bytes_app (mem : gmap (N * N) Byte.byte) (extension : N) (n m : nat) :
  forall address,
    read_bytes mem extension address (n + m)
    = read_bytes mem extension address n
        ++ read_bytes mem extension (address + N.of_nat n) m.
Proof.
  induction n as [|n IH]; intros address; simpl.
  - by rewrite N.add_0_r.
  - rewrite IH. do 3 f_equal. lia.
Qed.

Lemma write_bytes_app (front back : list Byte.byte) :
  forall mem extension address,
    write_bytes mem extension address (front ++ back)
    = write_bytes (write_bytes mem extension address front) extension
        (address + N.of_nat (length front)) back.
Proof.
  induction front as [|b front IH]; intros mem extension address; simpl.
  - by rewrite N.add_0_r.
  - rewrite IH. f_equal. lia.
Qed.

(** ** Chunking *)

Section Chunking.

Variable max_payload : nat.
Hypothesis payload_positive : (0 < max_payload)%nat.

Lemma chunk_sizes_sum (fuel : nat) :
  forall size, (size <= fuel)%nat ->
    sum_list (chunk_sizes max_payload fuel size) = size.
Proof.
  induction fuel as [|fuel IH]; intros size Hfuel.
  - by replace size with O by lia.
  - destruct size as [|size]; [done|].
    cbn [chunk_sizes sum_list]. rewrite IH by lia. unfold id. lia.
Qed.

Lemma chunk_sizes_bounded (fuel size : nat) :
  Forall (fun count => (0 < count <= max_payload)%nat)
    (chunk_sizes max_payload fuel size).
Proof.
  revert size. induction fuel as [|fuel IH]; intros size; [constructor|].
  destruct size as [|size]; [constructor|].
  cbn [chunk_sizes]. constructor; [lia|apply IH].
Qed.

Lemma chunks_concat (fuel : nat) :
  forall bytes, (length bytes <= fuel)%nat ->
    concat (chunks max_payload fuel bytes) = bytes.
Proof.
  induction fuel as [|fuel IH]; intros bytes Hfuel.
  - destruct bytes; [done|simpl in Hfuel; lia].
  - destruct bytes as [|b bytes]; [done|].
    cbn [chunks concat]. rewrite IH.
    + apply take_drop.
    + rewrite length_drop. simpl in *. lia.
Qed.

Lemma chunks_bounded (fuel : nat) (bytes : list Byte.byte) :
  Forall (fun payload => (0 < length payload <= max_payload)%nat)
    (chunks max_payload fuel bytes).
Proof.
  revert bytes. induction fuel as [|fuel IH]; intros bytes; [constructor|].
  destruct bytes as [|b bytes]; [constructor|].
  cbn [chunks]. constructor; [|apply IH].
  rewrite length_take. simpl. lia.
Qed.

End Chunking.

(** ** Exchanges over a link without faults *)

Lemma answered_fault_free (l : link) (request : frame) :
  fault_free l -> fault_free (answered l request).
Proof.
  unfold fault_free, answered. simpl. intros Hclean.
  destruct (faults l); [done|]. by apply Forall_cons in Hclean as [_ ?].
Qed.

Lemma send_fault_free (l : link) (request : frame) :
  fault_free l ->
  send l request = (answered l request, inl (respond (device l) request).2).
Proof.
  unfold fault_free, send, answered. intros Hclean.
  destruct (respond (device l) request) as [c reply].
  destruct (faults l) as [|d rest]; [done|].
  apply Forall_cons in Hclean as [<- _]. done.
Qed.

Lemma exchange_fault_free (retries : nat) (l : link) (request : frame) :
  fault_free l ->
  exchange retries l request
  = (answered l request, inl (respond (device l) request).2).
Proof. intros Hclean. destruct retries; simpl; by rewrite send_fault_free. Qed.

Section Transfers.

Variable max_payload : nat.
Variable retry_bound : nat.

Lemma upload_chunks_fault_free (counts : list nat) :
  forall l, fault_free l ->
    exists l',
      upload_chunks retry_bound l counts
      = (l', inl (read_bytes (memory (device l)) (mta_extension (device l))
                    (mta (device l)) (sum_list counts)))
      /\ fault_free l'
      /\ memory (device l') = memory (device l)
      /\ mta_extension (device l') = mta_extension (device l)
      /\ mta (device l') = (mta (device l) + N.of_nat (sum_list counts))%N.
Proof.
  induction counts as [|count counts IH]; intros l Hclean.
  - exists l. simpl. rewrite N.add_0_r. done.
  - cbn [upload_chunks]. rewrite exchange_fault_free by done. cbn [respond snd].
    destruct (IH (answered l (f_upload count))) as (l' & -> & Hclean' & Hmem & Hext & Hmta).
    { by apply answered_fault_free. }
    exists l'. cbn [sum_list]. rewrite read_bytes_app.
    simpl in Hmem, Hext, Hmta. rewrite Hmem, Hext, Hmta.
    repeat split; try done. unfold id. lia.
Qed.

Lemma download_chunks_fault_free (payloads : list (list Byte.byte)) :
  forall l, fault_free l ->
    exists l',
      download_chunks retry_bound l payloads = (l', inl ())
      /\ fault_free l'
      /\ memory (device l')
         = write_bytes (memory (device l)) (mta_extension (device l))
             (mta (device l)) (concat payloads)
      /\ mta_extension (device l') = mta_extension (device l)
      /\ mta (device l')
         = (mta (device l) + N.of_nat (length (concat payloads)))%N.
Proof.
  induction payloads as [|payload payloads IH]; intros l Hclean.
  - exists l. simpl. rewrite N.add_0_r. done.
  - cbn [download_chunks]. rewrite exchange_fault_free by done. cbn [respond snd].
    destruct (IH (answered l (f_download payload))) as (l' & -> & Hclean' & Hmem & Hext & Hmta).
    { by apply answered_fault_free. }
    exists l'. cbn [concat]. rewrite write_bytes_app, length_app.
    simpl in Hmem, Hext, Hmta. rewrite Hmem, Hext, Hmta.
    repeat split; try done. lia.
Qed.

Lemma rearm_fault_free (s : session) :
  fault_free (transport s) ->
  exists l,
    rearm retry_bound s = (l, inl ())
    /\ fault_free l
    /\ memory (device l) = memory (device (transport s))
    /\ mta (device l) = (pointer s).1
    /\ mta_extension (device l) = (pointer s).2.
Proof.
  intros Hclean. unfold rearm. rewrite exchange_fault_free by done.
  eexists. split; [reflexivity|]. split; [by apply answered_fault_free|done].
Qed.

Lemma setAddress_fault_free (s : session) (address extension : N) :
  established s = true -> fault_free (transport s) ->
  exists s',
    setAddress retry_bound s address extension = (s', inl ())
    /\ state s' = state s
    /\ pointer s' = (address, extension)
    /\ fault_free (transport s')
    /\ memory (device (transport s')) = memory (device (transport s)).
Proof.
  intros Hup Hclean. unfold setAddress. rewrite Hup.
  rewrite exchange_fault_free by done.
  eexists. split; [reflexivity|]. simpl.
  repeat split. by apply answered_fault_free.
Qed.

End Transfers.

(** ** The claims *)

(** C1.  On a session that is Connected or Measuring, over a link on which
    no transport fault is injected, [setAddress] to any address, then
    [download] of any bytes, then [upload] of as many bytes all succeed, and
    the upload returns exactly the bytes downloaded, whatever the maximum
    frame payload (at least one byte) and the retry bound are. *)
Theorem download_then_upload_round_trip (max_payload retry_bound : nat)
    (s : session) (address extension : N) (data : list Byte.byte) :
  (0 < max_payload)%nat ->
  established s = true ->
  fault_free (transport s) ->
  exists s1 s2 s3,
    setAddress retry_bound s address extension = (s1, inl ())
    /\ download max_payload retry_bound s1 data = (s2, inl ())
    /\ upload max_payload retry_bound s2 (length data) = (s3, inl data).
Proof.
  intros Hpayload Hup Hclean.
  destruct (setAddress_fault_free retry_bound s address extension Hup Hclean)
    as (s1 & Hset & Hstate1 & Hptr1 & Hclean1 & _).
  assert (Hup1 : established s1 = true).
  { unfold established in *. by rewrite Hstate1. }
  exists s1.
  (* the download *)
  destruct (rearm_fault_free retry_bound s1 Hclean1)
    as (l1 & Harm1 & Hcl1 & _ & Hmta1 & Hext1).
  destruct (download_chunks_fault_free retry_bound
              (chunks max_payload (length data) data) l1 Hcl1)
    as (l2 & Hdown & Hcl2 & Hmem2 & _ & _).
  rewrite (chunks_concat max_payload Hpayload) in Hmem2 by done.
  rewrite Hmta1, Hext1, Hptr1 in Hmem2. simpl in Hmem2.
  exists (with_link s1 l2).
  (* the upload *)
  destruct (rearm_fault_free retry_bound (with_link s1 l2) Hcl2)
    as (l3 & Harm3 & Hcl3 & Hmem3 & Hmta3 & Hext3).
  simpl in Hmem3, Hmta3, Hext3. rewrite Hptr1 in Hmta3, Hext3. simpl in Hmta3, Hext3.
  destruct (upload_chunks_fault_free retry_bound
              (chunk_sizes max_payload (length data) (length data)) l3 Hcl3)
    as (l4 & Hupl & _).
  rewrite (chunk_sizes_sum max_payload Hpayload) in Hupl by done.
  rewrite Hmem3, Hmta3, Hext3, Hmem2, read_bytes_write_bytes in Hupl.
  exists (with_link (with_link s1 l2) l4).
  split; [exact Hset|]. split.
  - unfold download. by rewrite Hup1, Harm1, Hdown.
  - unfold upload. change (established (with_link s1 l2)) with (established s1).
    by rewrite Hup1, Harm3, Hupl.
Qed.

Lemma download_then_upload_round_trip_witness :
  exists s1 s2 s3,
    setAddress 2 (port_controller Measuring) 268435458 0 = (s1, inl ())
    /\ download 3 2 s1 [Byte.x01; Byte.x02; Byte.x03; Byte.x04; Byte.x05]
       = (s2, inl ())
    /\ upload 3 2 s2 5
       = (s3, inl [Byte.x01; Byte.x02; Byte.x03; Byte.x04; Byte.x05]).
Proof.
  apply (download_then_upload_round_trip 3 2 (port_controller Measuring)
           268435458 0 [Byte.x01; Byte.x02; Byte.x03; Byte.x04; Byte.x05]).
  - lia.
  - reflexivity.
  - constructor.
Defined.

(** C4.  On a session that is Disconnected, [setAddress] and [upload] fail
    with [SessionError] and leave the session, its link and the frames on
    the wire as they were; the gateway answers an UPLOAD command for such
    a controller with an error Response that carries the command's
    identifier and the message "session not established", and changes no
    session. *)
Theorem disconnected_session_refuses (max_payload retry_bound : nat)
    (s : session) :
  state s = Disconnected ->
  (forall address extension,
     setAddress retry_bound s address extension = (s, inr SessionError))
  /\ (forall size,
       upload max_payload retry_bound s size = (s, inr SessionError)
       /\ wire (transport (upload max_payload retry_bound s size).1)
          = wire (transport s))
  /\ (forall sessions cmd size,
       sessions !! target cmd = Some s ->
       name cmd = UPLOAD -> bytes cmd = [size] ->
       handle max_payload retry_bound sessions cmd
       = (sessions,
          {| response_id := command_id cmd; response_status := error_status;
             message := "session not established"; returned_bytes := [] |})).
Proof.
  intros Hstate.
  assert (Hdown : established s = false) by (unfold established; by rewrite Hstate).
  split; [|split].
  - intros address extension. unfold setAddress. by rewrite Hdown.
  - intros size. unfold upload. by rewrite Hdown.
  - intros sessions cmd size Hs Hname Hbytes.
    unfold handle. rewrite Hs, Hname, Hbytes. unfold upload. rewrite Hdown.
    by rewrite insert_id.
Qed.

Lemma disconnected_session_refuses_witness :
  upload 3 2 (port_controller Disconnected) 4
    = (port_controller Disconnected, inr SessionError)
  /\ setAddress 2 (port_controller Disconnected) 268435456 0
     = (port_controller Disconnected, inr SessionError).
Proof.
  destruct (disconnected_session_refuses 3 2 (port_controller Disconnected) eq_refl)
    as (Hset & Hupload & _).
  split; [apply Hupload|apply Hset].
Defined.

(** The scenario of section 8: SET_MTA [0,0,0,0x10] then UPLOAD [4] on a
    connected controller are both answered with success, the second with
    the four bytes at 0x10000000. *)
Example set_mta_then_upload :
  let sessions := {[ 1%N := port_controller Connected ]} in
  let first :=
    handle 3 2 sessions
      {| command_id := "1"; target := 1; name := SET_MTA;
         bytes := [Byte.x00; Byte.x00; Byte.x00; Byte.x10] |} in
  let second :=
    handle 3 2 first.1
      {| command_id := "2"; target := 1; name := UPLOAD; bytes := [Byte.x04] |} in
  first.2 = {| response_id := "1"; response_status := success; message := "ok";
               returned_bytes := [] |}
  /\ second.2 = {| response_id := "2"; response_status := success; message := "ok";
                   returned_bytes := [Byte.xde; Byte.xad; Byte.xbe; Byte.xef] |}.
Proof. split; vm_compute; reflexivity. Qed.

End ProtocolMasterFacts.
